(** Verification of the sorted list (src/src/sorted_list.c) and of the
    priority queue built on it (src/src/priority_queue.c).

    Payloads are opaque ([void *]); a comparator is a function [A -> A -> Z]
    read as [cmp data new_data]: positive when [new_data] should come before
    [data], negative when it should come after (sorted_list.h). *)

From Stdlib Require Import List ZArith Lia Bool.
From Stdlib Require Import Sorting.Sorted Sorting.Permutation.
Import ListNotations.

(** * The doubly linked list engine (dll.h)

    The engine behind [dll_t] is not part of the sources; its operations are
    modelled from the spec (sections 2 and 6): a container is the sequence of
    its payloads in traversal order, a position is the index of a node, and
    the end sentinel of a container holding [n] payloads is position [n]. *)
Module DLL.
Section Engine.
Context {A : Type}.

(** Modelled from the spec: [DLLBegin], first position of a container. *)
Definition DLLBegin (l : list A) : nat := 0.

(** Modelled from the spec: [DLLEnd], the end sentinel. *)
Definition DLLEnd (l : list A) : nat := length l.

(** Modelled from the spec: [DLLNext]. *)
Definition DLLNext (p : nat) : nat := S p.

(** Modelled from the spec: [DLLGetData]; [None] at the end sentinel, which
    is not dereferenceable. *)
Definition DLLGetData (l : list A) (p : nat) : option A := nth_error l p.

(** Modelled from the spec: [DLLInsertBefore(position, payload)] links a new
    node before [p] and returns it; when the node cannot be allocated
    ([alloc_ok = false]) the container is unchanged and the end sentinel is
    returned (spec 4.1 and 7). *)
Definition DLLInsertBefore (alloc_ok : bool) (l : list A) (p : nat) (x : A)
  : list A * nat :=
  if alloc_ok then (firstn p l ++ x :: skipn p l, p) else (l, DLLEnd l).

(** Modelled from the spec: [DLLRemove(position)] unlinks the node and
    returns the position that followed it (same index after the unlink). *)
Definition DLLRemove (l : list A) (p : nat) : list A * nat :=
  (firstn p l ++ skipn (S p) l, p).

(** Modelled from the spec: [DLLPopFront]; the spec leaves the empty case
    open (4.1: undefined), so the model has no outcome there ([None]). *)
Definition DLLPopFront (l : list A) : option (A * list A) :=
  match l with
  | [] => None
  | x :: t => Some (x, t)
  end.

(** Modelled from the spec: [DLLPopBack], same convention as [DLLPopFront]. *)
Fixpoint DLLPopBack (l : list A) : option (A * list A) :=
  match l with
  | [] => None
  | [x] => Some (x, [])
  | x :: t =>
      match DLLPopBack t with
      | Some (y, t') => Some (y, x :: t')
      | None => None
      end
  end.

(** Modelled from the spec: [DLLIsEmpty], 1 when empty and 0 otherwise. *)
Definition DLLIsEmpty (l : list A) : Z :=
  match l with [] => 1%Z | _ => 0%Z end.

(** Modelled from the spec: [DLLCount]. *)
Definition DLLCount (l : list A) : nat := length l.

(** Modelled from the spec: [DLLForEach(from, to, action, param)] calls the
    action on each payload of [from, to) in order and returns the first
    non-zero status, or 0. [rest] is the container from position [p] on. *)
Fixpoint foreach_loop {B : Type} (action : A -> B -> Z) (param : B)
    (p : nat) (rest : list A) (to : nat) : Z :=
  if Nat.eqb p to then 0%Z else
  match rest with
  | [] => 0%Z
  | d :: rest' =>
      let st := action d param in
      if (st =? 0)%Z then foreach_loop action param (S p) rest' to else st
  end.

Definition DLLForEach {B : Type} (l : list A) (from to : nat)
    (action : A -> B -> Z) (param : B) : Z :=
  foreach_loop action param from (skipn from l) to.

End Engine.
End DLL.

Import DLL.

(** * Sorted list (sorted_list.c) *)
Module SortedList.
Section Ops.
Context {A : Type} (cmp : A -> A -> Z).

(** [struct sorted_list] pairs a [dll_t] with the comparator [cmp]; the
    functions below take the comparator as the section variable and the
    container as its payload sequence. *)

Definition SortedListBegin (l : list A) : nat := DLLBegin l.
Definition SortedListEnd (l : list A) : nat := DLLEnd l.
Definition SortedListCount (l : list A) : nat := DLLCount l.
Definition SortedListIsEmpty (l : list A) : Z := DLLIsEmpty l.

(** [SortedListIsEqual]: identity of the two positions, 1 or 0. *)
Definition SortedListIsEqual (p1 p2 : nat) : Z :=
  if Nat.eqb p1 p2 then 1%Z else 0%Z.

(** The loop of [SortedListInsert]:
    [while(start != end && 0 > cmp(GetData(start), data)) start = Next(start)].
    [rest] is the container from position [start] on; [rest = []] is
    [start == end]. *)
Fixpoint insert_scan (data : A) (start : nat) (rest : list A) : nat :=
  match rest with
  | [] => start
  | cur :: rest' =>
      if (cmp cur data <? 0)%Z then insert_scan data (DLLNext start) rest'
      else start
  end.

(** [SortedListInsert]: the returned position is the new node, or the end
    sentinel when the engine cannot allocate. *)
Definition SortedListInsert (alloc_ok : bool) (l : list A) (data : A)
  : list A * nat :=
  DLLInsertBefore alloc_ok l (insert_scan data (SortedListBegin l) l) data.

Definition SortedListRemove (l : list A) (p : nat) : list A * nat :=
  DLLRemove l p.

Definition SortedListPopFront (l : list A) : option (A * list A) :=
  DLLPopFront l.

Definition SortedListPopBack (l : list A) : option (A * list A) :=
  DLLPopBack l.

(** Longest prefix of [l] whose elements satisfy [p], and the rest: a
    cursor advanced by a [while(cursor != end && p(cursor))] loop. *)
Fixpoint span (p : A -> bool) (l : list A) : list A * list A :=
  match l with
  | [] => ([], [])
  | x :: t =>
      if p x then let (a, b) := span p t in (x :: a, b) else ([], l)
  end.

(** The outer loop of [SortedListMerge]. The destination is [done ++ rest]
    where [rest] starts at [runner]; [src] is the source container, so [from]
    is its first position. At the head of every iteration [to] is also the
    first position of the source: initially both are [DLLBegin(source)], and
    after [DLLSplice(runner, from, to)] the source starts at [to].
    - the first inner loop advances [runner] while
      [0 >= cmp(GetData(runner), GetData(from))];
    - if [runner] is the end of [dest], [to] becomes the end of [source];
    - otherwise [to] advances while [0 > cmp(GetData(to), GetData(runner))];
    - the splice moves [from, to) before [runner].
    Every iteration that moves nothing leaves the state as it was, so the C
    loop runs forever from there; [fuel] counts iterations and [None] means
    that the loop has not exited within it. *)
Fixpoint merge_loop (fuel : nat) (done rest src : list A)
  : option (list A * list A) :=
  match fuel with
  | O => None
  | S fuel' =>
      match src with
      | [] => Some (done ++ rest, [])
      | f :: _ =>
          let (skipped, rest1) := span (fun r => (cmp r f <=? 0)%Z) rest in
          match rest1 with
          | [] => merge_loop fuel' (done ++ skipped ++ src) [] []
          | r :: _ =>
              let (moved, src1) := span (fun t => (cmp t r <? 0)%Z) src in
              merge_loop fuel' (done ++ skipped ++ moved) rest1 src1
          end
      end
  end.

(** [SortedListMerge(dest, source)]: the new contents of [dest] and of
    [source]. Each iteration that exits or moves something consumes at least
    one source payload, so [length source + 1] iterations suffice for every
    terminating run. *)
Definition SortedListMerge (dest source : list A) : option (list A * list A) :=
  merge_loop (S (length source)) [] dest source.

(** The loop of [SortedListFind]:
    [for(; target != to && 0 < cmp(GetData(target), parameter); target = Next(target))].
    [rest] is the container from [target] on. When [rest] is empty and
    [target <> to], [target] is the end sentinel and [to] was not reachable
    from [from]: the C code would dereference the sentinel; this is outside
    the function's precondition. *)
Fixpoint find_loop (key : A) (target : nat) (rest : list A) (to : nat) : nat :=
  if Nat.eqb target to then target else
  match rest with
  | [] => target
  | cur :: rest' =>
      if (0 <? cmp cur key)%Z then find_loop key (DLLNext target) rest' to
      else target
  end.

Definition SortedListFind (l : list A) (from to : nat) (key : A) : nat :=
  find_loop key from (skipn from l) to.

(** The loop of [SortedListFindIf]; same reading of [rest] as [find_loop]. *)
Fixpoint findif_loop {B : Type} (match_ : A -> B -> Z) (param : B)
    (runner : nat) (rest : list A) (to : nat) : nat :=
  if Nat.eqb runner to then to else
  match rest with
  | [] => to
  | d :: rest' =>
      if negb (match_ d param =? 0)%Z then runner
      else findif_loop match_ param (DLLNext runner) rest' to
  end.

Definition SortedListFindIf {B : Type} (l : list A) (from to : nat)
    (match_ : A -> B -> Z) (param : B) : nat :=
  findif_loop match_ param from (skipn from l) to.

End Ops.
End SortedList.

Import SortedList.

(** * Priority queue (priority_queue.c): a queue owns one sorted list. *)
Module PriorityQueue.
Section Adapter.
Context {A : Type} (cmp : A -> A -> Z).

(** [PriorityQueueEnqueue]: returns
    [SortedListIsEqual(SortedListEnd(list), inserted)]. *)
Definition PriorityQueueEnqueue (alloc_ok : bool) (q : list A) (data : A)
  : list A * Z :=
  let (q', insert) := SortedListInsert cmp alloc_ok q data in
  (q', SortedListIsEqual (SortedListEnd q') insert).

Definition PriorityQueueDequeue (q : list A) : option (A * list A) :=
  SortedListPopFront q.

(** [PriorityQueuePeek]: the payload at [SortedListBegin]; [None] stands
    for dereferencing the end sentinel of an empty queue. *)
Definition PriorityQueuePeek (q : list A) : option A :=
  DLLGetData q (SortedListBegin q).

Definition PriorityQueueIsEmpty (q : list A) : Z := SortedListIsEmpty q.

Definition PriorityQueueSize (q : list A) : nat := SortedListCount q.

(** The [void *] returned by [PriorityQueueErase]: a payload, or the queue
    pointer itself. *)
Inductive erase_ret : Type :=
| ErasedData (d : A)
| QueueHandle.

(** [PriorityQueueErase]: [SortedListFindIf] over [Begin, End); the queue
    pointer when the result is [End], else the payload, after
    [SortedListRemove]. *)
Definition PriorityQueueErase {B : Type} (q : list A) (ismatch : A -> B -> Z)
    (param : B) : list A * erase_ret :=
  let result := SortedListFindIf q (SortedListBegin q) (SortedListEnd q)
                  ismatch param in
  if negb (SortedListIsEqual result (SortedListEnd q) =? 0)%Z
  then (q, QueueHandle)
  else
    match DLLGetData q result with
    | Some data => (fst (SortedListRemove q result), ErasedData data)
    | None => (q, QueueHandle) (* unreachable: [result] is before [End] *)
    end.

(** [PriorityQueueClear]:
    [for(; !SortedListIsEmpty(list); SortedListPopFront(list));].
    [fuel] counts iterations; [None] means that the loop has not exited
    within them. *)
Fixpoint clear_loop (fuel : nat) (q : list A) : option (list A) :=
  match fuel with
  | O => None
  | S fuel' =>
      if negb (SortedListIsEmpty q =? 0)%Z then Some q
      else
        match SortedListPopFront q with
        | Some (_, q') => clear_loop fuel' q'
        | None => Some q
        end
  end.

(** Each iteration pops one payload, so [length q + 1] iterations suffice. *)
Definition PriorityQueueClear (q : list A) : option (list A) :=
  clear_loop (S (length q)) q.

End Adapter.
Arguments QueueHandle {A}.
End PriorityQueue.

Import PriorityQueue.

(** * Debug build ([NDEBUG] not defined)

    Iterators carry the owning list ([sorted_list_iter_t.list]); the range
    functions check that [from] and [to] share it. Lists are named by their
    address in a store. *)
Module Debug.

(** Outcome of a function body in a debug build: a returned value, or a
    failed [assert] (the program aborts). *)
Inductive checked (T : Type) : Type :=
| Returned (v : T)
| AssertFailed.
Arguments Returned {T} v.
Arguments AssertFailed {T}.

Record sorted_list_iter_t : Type := {
  iterator : nat;       (* the [dll_iter_t] *)
  iter_list : nat       (* the owning [sorted_list_t *] *)
}.

Record sorted_list_t (A : Type) : Type := {
  sl_dll : list A;
  sl_cmp : A -> A -> Z
}.
Arguments sl_dll {A} s.
Arguments sl_cmp {A} s.

Section Range.
Context {A : Type} (store : nat -> sorted_list_t A).

(** The nodes an iterator walks over are those of its own list. *)
Definition nodes_of (it : sorted_list_iter_t) : list A :=
  sl_dll (store (iter_list it)).

(** [SortedListFind] with [assert(from.list == to.list)]. *)
Definition SortedListFind_dbg (lst : nat) (from to : sorted_list_iter_t)
    (parameter : A) : checked sorted_list_iter_t :=
  if Nat.eqb (iter_list from) (iter_list to) then
    Returned {| iterator := SortedListFind (sl_cmp (store lst)) (nodes_of from)
                              (iterator from) (iterator to) parameter;
                iter_list := iter_list from |}
  else AssertFailed.

(** [SortedListFindIf] with [assert(from.list == to.list)]; the result is
    the running iterator (owned by [from]'s list) or [to]. *)
Definition SortedListFindIf_dbg {B : Type} (from to : sorted_list_iter_t)
    (match_ : A -> B -> Z) (parameter : B) : checked sorted_list_iter_t :=
  if Nat.eqb (iter_list from) (iter_list to) then
    let r := SortedListFindIf (nodes_of from) (iterator from) (iterator to)
               match_ parameter in
    Returned (if Nat.eqb r (iterator to) then to
              else {| iterator := r; iter_list := iter_list from |})
  else AssertFailed.

(** [SortedListForEach] with [if(from.list != to.list) return (-1);]. *)
Definition SortedListForEach_dbg {B : Type} (from to : sorted_list_iter_t)
    (action : A -> B -> Z) (parameter : B) : checked Z :=
  if negb (Nat.eqb (iter_list from) (iter_list to)) then Returned (-1)%Z
  else Returned (DLLForEach (nodes_of from) (iterator from) (iterator to)
                   action parameter).

End Range.
End Debug.

(** * Properties stated over the model *)
Section Props.
Context {A : Type} (cmp : A -> A -> Z).

(** [P a b] holds for every payload [a] immediately followed by [b]. *)
Definition adjacent_pairs (P : A -> A -> Prop) (l : list A) : Prop :=
  forall i a b, nth_error l i = Some a -> nth_error l (S i) = Some b -> P a b.

(** [b] may follow [a]: [cmp a b <= 0], so [SortedListInsert] of [b] does
    not stop before [a] unless they tie. *)
Definition may_follow (a b : A) : Prop := (cmp a b <= 0)%Z.

Definition sorted_by (l : list A) : Prop := Sorted may_follow l.

(** The order kept by the list: [cmp(B, A) >= 0] for [A] immediately
    before [B]. *)
Definition sorted_list_inv (l : list A) : Prop :=
  adjacent_pairs (fun a b => (0 <= cmp b a)%Z) l.

(** One mutation of a sorted list, or of the list of a priority queue,
    through the interface. *)
Inductive sl_step : list A -> list A -> Prop :=
| step_insert alloc_ok l x :
    sl_step l (fst (SortedListInsert cmp alloc_ok l x))
| step_remove l p :
    sl_step l (fst (SortedListRemove l p))
| step_pop_front l x l' :
    SortedListPopFront l = Some (x, l') -> sl_step l l'
| step_pop_back l x l' :
    SortedListPopBack l = Some (x, l') -> sl_step l l'
| step_merge l src l' src' :
    sorted_list_inv src -> SortedListMerge cmp l src = Some (l', src') ->
    sl_step l l'
| step_erase (B : Type) l (ismatch : A -> B -> Z) (param : B) :
    sl_step l (fst (PriorityQueueErase l ismatch param)).

(** Reference for [SortedListMerge]: the element-wise merge that emits
    the destination's payload [x] before the source's payload [y] when
    [cmp x y <= 0], and [y] first otherwise. *)
Fixpoint stable_merge (d : list A) : list A -> list A :=
  match d with
  | [] => fun s => s
  | x :: d' =>
      fix merge_src (s : list A) : list A :=
        match s with
        | [] => x :: d'
        | y :: s' =>
            if (cmp x y <=? 0)%Z then x :: stable_merge d' s
            else y :: merge_src s'
        end
  end.

Inductive sl_steps : list A -> list A -> Prop :=
| steps_refl l : sl_steps l l
| steps_cons l1 l2 l3 : sl_step l1 l2 -> sl_steps l2 l3 -> sl_steps l1 l3.

End Props.

(** The numeric ascending-priority comparator: [cmp(data, new_data)] is
    positive when [new_data] is smaller, so smaller numbers come first. *)
Definition asc (data new_data : Z) : Z := (data - new_data)%Z.

(** Payloads tagged with an identity: [(priority, id)], ordered by
    ascending priority only, so that ties can be told apart. *)
Definition by_priority (data new_data : Z * nat) : Z :=
  (fst data - fst new_data)%Z.

(** A queue filled by successive [PriorityQueueEnqueue] calls that all
    allocate. *)
Definition enqueue_all (q : list Z) (xs : list Z) : list Z :=
  fold_left (fun q x => fst (PriorityQueueEnqueue asc true q x)) xs q.

(** An equality predicate for [PriorityQueueErase]. *)
Definition is_equal (data parameter : Z) : Z :=
  if Z.eqb data parameter then 1%Z else 0%Z.

(** * List facts and the shape of the scanning loops *)
Section ListFacts.
Context {A : Type}.

Lemma span_spec (p : A -> bool) l a b :
  span p l = (a, b) ->
  l = a ++ b /\ Forall (fun x => p x = true) a /\
  (forall h t, b = h :: t -> p h = false).
Proof.
  revert a b; induction l as [|x t IH]; intros a b H; simpl in H.
  - inversion H; subst. split; [reflexivity | split; [constructor |]].
    intros h t' E; discriminate.
  - destruct (p x) eqn:Px.
    + destruct (span p t) as [a' b'] eqn:E. inversion H; subst.
      destruct (IH _ _ eq_refl) as (-> & Ha & Hb).
      split; [reflexivity | split; [constructor; assumption | exact Hb]].
    + inversion H; subst. split; [reflexivity | split; [constructor |]].
      intros h t' E; inversion E; subst; assumption.
Qed.

Lemma firstn_skipn_length_app (a b : list A) :
  firstn (length a) (a ++ b) = a /\ skipn (length a) (a ++ b) = b.
Proof.
  induction a as [|x a IH]; simpl; [split; reflexivity|].
  destruct IH as [-> ->]; split; reflexivity.
Qed.

Lemma ss_app_iff (R : A -> A -> Prop) (l1 l2 : list A) :
  StronglySorted R (l1 ++ l2) <->
  StronglySorted R l1 /\ StronglySorted R l2 /\
  (forall x y, In x l1 -> In y l2 -> R x y).
Proof.
  induction l1 as [|x l1 IH]; simpl.
  - split; [intros H; split; [constructor | split; [exact H | tauto]] | tauto].
  - split.
    + intros H; inversion H as [|x' l' Hss Hfa]; subst.
      apply IH in Hss as (H1 & H2 & H3).
      apply Forall_app in Hfa as [Hf1 Hf2].
      split; [constructor; assumption | split; [exact H2 |]].
      intros u v [<- | Hu] Hv; [rewrite Forall_forall in Hf2; auto | auto].
    + intros (H1 & H2 & H3); inversion H1 as [|x' l' Hss Hfa]; subst.
      constructor; [apply IH; split; [exact Hss | split; [exact H2 |]] |].
      * intros u v Hu Hv; apply H3; auto.
      * apply Forall_app; split; [exact Hfa |].
        rewrite Forall_forall; intros v Hv; apply H3; auto.
Qed.

Lemma in_firstn_l (x : A) n l : In x (firstn n l) -> In x l.
Proof.
  revert l; induction n as [|n IH]; intros [|y l] H; simpl in *; try tauto.
  destruct H as [-> | H]; [left; reflexivity | right; apply IH; exact H].
Qed.

Lemma in_skipn_l (x : A) n l : In x (skipn n l) -> In x l.
Proof.
  revert l; induction n as [|n IH]; intros [|y l] H; simpl in *; try tauto.
  right; apply IH; exact H.
Qed.

Lemma ss_remove_at (R : A -> A -> Prop) (l : list A) (p : nat) :
  StronglySorted R l -> StronglySorted R (firstn p l ++ skipn (S p) l).
Proof.
  revert p; induction l as [|x t IH]; intros p H; [destruct p; constructor|].
  inversion H as [|x' t' Hss Hfa]; subst.
  destruct p as [|p]; simpl; [exact Hss|].
  constructor; [apply IH; exact Hss|].
  rewrite Forall_forall in Hfa |- *; intros v Hv.
  apply Hfa. apply in_app_or in Hv as [Hv | Hv].
  - eapply in_firstn_l; eauto.
  - apply (in_skipn_l v (S p) t); exact Hv.
Qed.

Lemma dllpopback_shape (l l' : list A) (y : A) :
  DLLPopBack l = Some (y, l') -> l = l' ++ [y].
Proof.
  revert l'; induction l as [|x t IH]; intros l' H; [discriminate|].
  destruct t as [|x2 t].
  - simpl in H; inversion H; reflexivity.
  - change (match DLLPopBack (x2 :: t) with
            | Some (z, t') => Some (z, x :: t')
            | None => None
            end = Some (y, l')) in H.
    destruct (DLLPopBack (x2 :: t)) as [[z t']|] eqn:E; [|discriminate].
    inversion H; subst. rewrite (IH _ eq_refl). reflexivity.
Qed.

End ListFacts.

Lemma adjacent_pairs_sorted {A : Type} (P : A -> A -> Prop) (l : list A) :
  adjacent_pairs P l <-> Sorted P l.
Proof.
  induction l as [|x t IH]; split.
  - intros _; constructor.
  - intros _ [|i] a b H; discriminate.
  - intros H; constructor.
    + apply IH; intros i a b Ha Hb; exact (H (S i) a b Ha Hb).
    + destruct t as [|y t]; constructor; exact (H 0 x y eq_refl eq_refl).
  - intros H; inversion H as [|x' t' Ht Hhd]; subst.
    intros [|i] a b Ha Hb; simpl in Ha, Hb.
    + inversion Ha; subst. destruct t as [|y t]; [discriminate|].
      inversion Hb; subst. inversion Hhd; assumption.
    + apply IH in Ht; exact (Ht i a b Ha Hb).
Qed.

Section InsertShape.
Context {A : Type} (cmp : A -> A -> Z).

Lemma insert_scan_span x s l :
  insert_scan cmp x s l =
  (s + length (fst (span (fun c => (cmp c x <? 0)%Z) l)))%nat.
Proof.
  revert s; induction l as [|c l IH]; intros s; simpl; [lia|].
  destruct (cmp c x <? 0)%Z; simpl.
  - rewrite IH. unfold DLLNext.
    destruct (span (fun c0 => (cmp c0 x <? 0)%Z) l) as [a b]; simpl; lia.
  - lia.
Qed.

(** The insertion point: after the prefix of payloads [c] with
    [cmp c data < 0]. *)
Lemma insert_shape alloc_ok l x a b :
  span (fun c => (cmp c x <? 0)%Z) l = (a, b) ->
  SortedListInsert cmp alloc_ok l x =
  if alloc_ok then (a ++ x :: b, length a) else (l, length l).
Proof.
  intros E. unfold SortedListInsert, DLLInsertBefore, SortedListBegin,
    DLLBegin, DLLEnd.
  rewrite insert_scan_span, E. simpl.
  destruct (span_spec _ _ _ _ E) as (-> & _ & _).
  destruct (firstn_skipn_length_app a b) as [-> ->].
  destruct alloc_ok; reflexivity.
Qed.

End InsertShape.

(** * A comparator that induces an order

    [cmp] is antisymmetric in sign and [may_follow] is transitive: a total
    preorder, as the spec requires of comparators (section 3). *)
Section Laws.
Context {A : Type} (cmp : A -> A -> Z).
Hypothesis cmp_antisym : forall a b, Z.sgn (cmp b a) = (- Z.sgn (cmp a b))%Z.
Hypothesis cmp_trans :
  forall a b c, (cmp a b <= 0)%Z -> (cmp b c <= 0)%Z -> (cmp a c <= 0)%Z.

Ltac sgn_cases a b :=
  let H := fresh in
  pose proof (cmp_antisym a b) as H;
  destruct (cmp a b), (cmp b a); simpl in H; try discriminate; lia.

Lemma cmp_flip_le a b : (cmp a b <= 0)%Z <-> (0 <= cmp b a)%Z.
Proof. split; intros; sgn_cases a b. Qed.

Lemma cmp_flip_lt a b : (cmp a b < 0)%Z -> (0 < cmp b a)%Z.
Proof. intros; sgn_cases a b. Qed.

Lemma cmp_flip_eq a b : cmp a b = 0%Z -> cmp b a = 0%Z.
Proof. intros; sgn_cases a b. Qed.

Lemma may_follow_trans : Relations_1.Transitive (may_follow cmp).
Proof. intros a b c; apply cmp_trans. Qed.

Lemma sorted_inv_iff l : sorted_list_inv cmp l <-> sorted_by cmp l.
Proof.
  unfold sorted_list_inv, sorted_by.
  rewrite <- adjacent_pairs_sorted.
  split; intros H i a b Ha Hb; apply cmp_flip_le; exact (H i a b Ha Hb).
Qed.

Lemma sorted_strongly l : sorted_by cmp l <-> StronglySorted (may_follow cmp) l.
Proof.
  split; [apply Sorted_StronglySorted, may_follow_trans
         | apply StronglySorted_Sorted].
Qed.

Lemma ss_insert alloc_ok l x :
  StronglySorted (may_follow cmp) l ->
  StronglySorted (may_follow cmp) (fst (SortedListInsert cmp alloc_ok l x)).
Proof.
  intros H.
  destruct (span (fun c => (cmp c x <? 0)%Z) l) as [a b] eqn:E.
  rewrite (insert_shape cmp alloc_ok l x a b E).
  destruct alloc_ok; simpl; [|exact H].
  destruct (span_spec _ _ _ _ E) as (-> & Ha & Hb).
  apply ss_app_iff in H as (H1 & H2 & H3).
  apply ss_app_iff; split; [exact H1|]; split.
  - constructor; [exact H2|].
    destruct b as [|h t]; [constructor|].
    specialize (Hb h t eq_refl). apply Z.ltb_ge in Hb.
    assert (Hxh : may_follow cmp x h) by (apply cmp_flip_le; exact Hb).
    inversion H2 as [|h' t' _ Hfa]; subst.
    constructor; [exact Hxh|].
    rewrite Forall_forall in Hfa |- *; intros y Hy.
    exact (cmp_trans _ _ _ Hxh (Hfa y Hy)).
  - intros u v Hu [<- | Hv]; [|exact (H3 u v Hu Hv)].
    rewrite Forall_forall in Ha; specialize (Ha u Hu).
    apply Z.ltb_lt in Ha; unfold may_follow; lia.
Qed.

Lemma ss_pop_front l x l' :
  StronglySorted (may_follow cmp) l -> SortedListPopFront l = Some (x, l') ->
  StronglySorted (may_follow cmp) l'.
Proof.
  intros H E; destruct l as [|y t]; [discriminate|].
  inversion E; subst; inversion H; assumption.
Qed.

Lemma ss_pop_back l x l' :
  StronglySorted (may_follow cmp) l -> SortedListPopBack l = Some (x, l') ->
  StronglySorted (may_follow cmp) l'.
Proof.
  intros H E; apply dllpopback_shape in E; subst.
  apply ss_app_iff in H as (H1 & _ & _); exact H1.
Qed.

Lemma ss_erase {B : Type} l (ismatch : A -> B -> Z) param :
  StronglySorted (may_follow cmp) l ->
  StronglySorted (may_follow cmp) (fst (PriorityQueueErase l ismatch param)).
Proof.
  intros H; unfold PriorityQueueErase.
  destruct (negb _); [exact H|].
  destruct (DLLGetData _ _); [apply ss_remove_at; exact H | exact H].
Qed.


(** The invariant of the outer loop of [SortedListMerge]: the destination
    is ordered, the source is ordered, and every payload already passed by
    [runner] may precede every payload left in the source. *)
Lemma merge_loop_sorted fuel done rest src :
  StronglySorted (may_follow cmp) (done ++ rest) ->
  StronglySorted (may_follow cmp) src ->
  (forall d s, In d done -> In s src -> may_follow cmp d s) ->
  (length src < fuel)%nat ->
  exists d', merge_loop cmp fuel done rest src = Some (d', []) /\
             StronglySorted (may_follow cmp) d' /\
             Permutation d' (done ++ rest ++ src).
Proof.
  revert done rest src.
  induction fuel as [|fuel IH]; intros done rest src Hd Hs Hx Hf; [lia|].
  destruct src as [|f src0].
  - exists (done ++ rest); split; [reflexivity|]; split; [exact Hd|].
    rewrite app_nil_r; apply Permutation_refl.
  - simpl.
    destruct (span (fun r => (cmp r f <=? 0)%Z) rest) as [skipped rest1] eqn:Esk.
    destruct (span_spec _ _ _ _ Esk) as (-> & Hsk & Hstop).
    assert (Hskx : forall d s, In d (done ++ skipped) -> In s (f :: src0) ->
                               may_follow cmp d s).
    { intros d s Hd' Hs'. apply in_app_or in Hd' as [Hd' | Hd']; [auto|].
      rewrite Forall_forall in Hsk; specialize (Hsk d Hd').
      apply Z.leb_le in Hsk.
      destruct Hs' as [<- | Hs']; [exact Hsk|].
      inversion Hs as [|f' s' _ Hfa]; subst; rewrite Forall_forall in Hfa.
      exact (cmp_trans _ _ _ Hsk (Hfa s Hs')). }
    rewrite app_assoc in Hd; apply ss_app_iff in Hd as (Hd1 & Hr1 & Hd3).
    destruct rest1 as [|r rest1'].
    + destruct (IH (done ++ skipped ++ f :: src0) [] []) as (d' & E & Hss & Hp).
      * rewrite app_nil_r, app_assoc; apply ss_app_iff.
        split; [exact Hd1|]; split; [exact Hs | exact Hskx].
      * constructor.
      * intros _ s _ [].
      * simpl in Hf |- *; lia.
      * exists d'; split; [exact E|]; split; [exact Hss|].
        rewrite Hp, !app_nil_r, !app_assoc; apply Permutation_refl.
    + destruct (span (fun t => (cmp t r <? 0)%Z) (f :: src0))
        as [moved src1] eqn:Emv.
      destruct (span_spec _ _ _ _ Emv) as (Hsrc & Hmv & _).
      assert (Hfr : (cmp f r <? 0)%Z = true).
      { specialize (Hstop r rest1' eq_refl); apply Z.leb_gt in Hstop.
        apply Z.ltb_lt. pose proof (cmp_antisym r f).
        destruct (cmp r f), (cmp f r); simpl in *; try discriminate; lia. }
      assert (Hlen : (length src1 < length (f :: src0))%nat).
      { simpl in Emv; rewrite Hfr in Emv.
        destruct (span (fun t => (cmp t r <? 0)%Z) src0) as [m s1] eqn:E'.
        inversion Emv; subst moved src1.
        apply (f_equal (@length A)) in Hsrc; rewrite length_app in Hsrc.
        simpl in Hsrc |- *; lia. }
      rewrite Hsrc in Hs; apply ss_app_iff in Hs as (Hm1 & Hs1 & Hms).
      assert (Hsub1 : forall s, In s src1 -> In s (f :: src0))
        by (intros s Hs'; rewrite Hsrc; apply in_or_app; right; exact Hs').
      assert (Hsubm : forall s, In s moved -> In s (f :: src0))
        by (intros s Hs'; rewrite Hsrc; apply in_or_app; left; exact Hs').
      destruct (IH (done ++ skipped ++ moved) (r :: rest1') src1)
        as (d' & E & Hss & Hp).
      * rewrite app_assoc; apply ss_app_iff; split; [|split; [exact Hr1|]].
        -- apply ss_app_iff; split; [exact Hd1|]; split; [exact Hm1|].
           intros u v Hu Hv; exact (Hskx u v Hu (Hsubm v Hv)).
        -- intros u v Hu Hv; apply in_app_or in Hu as [Hu | Hu];
             [exact (Hd3 u v Hu Hv)|].
           rewrite Forall_forall in Hmv; specialize (Hmv u Hu).
           apply Z.ltb_lt in Hmv.
           assert (Hur : may_follow cmp u r) by (unfold may_follow; lia).
           destruct Hv as [<- | Hv]; [exact Hur|].
           inversion Hr1 as [|r' t' _ Hfa]; subst.
           rewrite Forall_forall in Hfa; exact (cmp_trans _ _ _ Hur (Hfa v Hv)).
      * exact Hs1.
      * intros u v Hu Hv; rewrite app_assoc in Hu;
          apply in_app_or in Hu as [Hu | Hu].
        -- exact (Hskx u v Hu (Hsub1 v Hv)).
        -- exact (Hms u v Hu Hv).
      * simpl in Hf, Hlen |- *; lia.
      * exists d'; split; [simpl in Emv; rewrite Emv; exact E|]; split; [exact Hss|].
        rewrite Hp, Hsrc, <- !app_assoc.
        apply Permutation_app_head, Permutation_app_head.
        apply Permutation_app_swap_app.
Qed.


Lemma span_stop (p : A -> bool) a h t :
  Forall (fun x => p x = true) a -> p h = false ->
  span p (a ++ h :: t) = (a, h :: t).
Proof.
  intros Ha Hh; induction Ha as [|x a Hx Ha IH]; simpl.
  - rewrite Hh; reflexivity.
  - rewrite Hx, IH; reflexivity.
Qed.

Lemma ss_merge l src l' src' :
  StronglySorted (may_follow cmp) l -> StronglySorted (may_follow cmp) src ->
  SortedListMerge cmp l src = Some (l', src') ->
  src' = [] /\ StronglySorted (may_follow cmp) l' /\ Permutation l' (l ++ src).
Proof.
  intros Hl Hs E.
  destruct (merge_loop_sorted (S (length src)) [] l src) as (d' & E' & Hd & Hp);
    [exact Hl | exact Hs | intros _ _ [] | lia |].
  unfold SortedListMerge in E; rewrite E' in E; inversion E; subst.
  split; [reflexivity | split; [exact Hd | exact Hp]].
Qed.

(** C1 (amended): starting from a list in which every payload [A]
    immediately followed by [B] has [cmp(B, A) >= 0], every sequence of
    Insert, Remove, PopFront, PopBack, Merge (with a source kept the same
    way) and Erase yields a list with the same property. *)
Theorem sort_invariant_preserved l l' :
  sorted_list_inv cmp l -> sl_steps cmp l l' -> sorted_list_inv cmp l'.
Proof.
  intros H Hs; induction Hs as [l|l1 l2 l3 Hst Hs IH]; [exact H|].
  apply IH. rewrite sorted_inv_iff, sorted_strongly in H |- *.
  destruct Hst as [ok l x | l p | l x l' E | l x l' E
                  | l src l' src' Hsrc E | B l ismatch param].
  - apply ss_insert; exact H.
  - apply ss_remove_at; exact H.
  - exact (ss_pop_front l x l' H E).
  - exact (ss_pop_back l x l' H E).
  - rewrite sorted_inv_iff, sorted_strongly in Hsrc.
    destruct (ss_merge l src l' src' H Hsrc E) as (_ & Hl' & _); exact Hl'.
  - apply ss_erase; exact H.
Qed.

(** C2: [SortedListInsert] puts [data] after the longest prefix of payloads
    [c] with [cmp(c, data) < 0], that is before the first payload with
    [cmp(c, data) >= 0] or before End; hence inserting [e1] and then [e2]
    with [cmp(e1, e2) = 0] puts [e2] immediately before [e1]. *)
Theorem insert_ties_lifo :
  (forall l x, exists pre post,
     l = pre ++ post /\ Forall (fun c => (cmp c x < 0)%Z) pre /\
     (forall h t, post = h :: t -> (0 <= cmp h x)%Z) /\
     SortedListInsert cmp true l x = (pre ++ x :: post, length pre)) /\
  (forall l e1 e2, cmp e1 e2 = 0%Z ->
     exists pre post, l = pre ++ post /\
     fst (SortedListInsert cmp true (fst (SortedListInsert cmp true l e1)) e2)
       = pre ++ e2 :: e1 :: post).
Proof.
  split.
  - intros l x.
    destruct (span (fun c => (cmp c x <? 0)%Z) l) as [a b] eqn:E.
    destruct (span_spec _ _ _ _ E) as (Hl & Ha & Hb).
    exists a, b; split; [exact Hl|]; split; [|split].
    + rewrite Forall_forall in Ha |- *; intros c Hc; apply Z.ltb_lt, Ha, Hc.
    + intros h t Ht; apply Z.ltb_ge, (Hb h t Ht).
    + exact (insert_shape cmp true l x a b E).
  - intros l e1 e2 H12.
    destruct (span (fun c => (cmp c e1 <? 0)%Z) l) as [a b] eqn:E.
    destruct (span_spec _ _ _ _ E) as (Hl & Ha & _).
    exists a, b; split; [exact Hl|].
    rewrite (insert_shape cmp true l e1 a b E); cbn [fst].
    assert (E2 : span (fun c => (cmp c e2 <? 0)%Z) (a ++ e1 :: b) = (a, e1 :: b)).
    { apply span_stop; [|rewrite H12; reflexivity].
      rewrite Forall_forall in Ha |- *; intros c Hc.
      specialize (Ha c Hc); apply Z.ltb_lt in Ha; apply Z.ltb_lt.
      destruct (Z.lt_ge_cases (cmp c e2) 0) as [Hlt | Hge]; [exact Hlt|].
      exfalso. apply cmp_flip_le in Hge.
      assert (H21 : (cmp e1 c <= 0)%Z) by (apply (cmp_trans e1 e2 c); lia).
      apply cmp_flip_le in H21; lia. }
    rewrite (insert_shape cmp true _ e2 a (e1 :: b) E2); reflexivity.
Qed.

(** C3: merging two lists ordered by the same comparator leaves the source
    empty and the destination ordered, holding [n + m] payloads that are
    those of both lists. *)
Theorem merge_correct l1 l2 :
  sorted_by cmp l1 -> sorted_by cmp l2 ->
  exists l1', SortedListMerge cmp l1 l2 = Some (l1', []) /\
    length l1' = (length l1 + length l2)%nat /\
    sorted_by cmp l1' /\ Permutation l1' (l1 ++ l2).
Proof.
  intros H1 H2; rewrite sorted_strongly in H1, H2.
  destruct (merge_loop_sorted (S (length l2)) [] l1 l2) as (d' & E & Hd & Hp);
    [exact H1 | exact H2 | intros _ _ [] | lia |].
  simpl in Hp; exists d'; split; [exact E|]; split; [|split].
  - rewrite (Permutation_length Hp), length_app; reflexivity.
  - apply sorted_strongly; exact Hd.
  - exact Hp.
Qed.

End Laws.

(** * Scanning loops over a range *)
Section Ranges.
Context {A : Type}.

Lemma skipn_cons_next (l rest : list A) n c :
  skipn n l = c :: rest -> nth_error l n = Some c /\ skipn (S n) l = rest.
Proof.
  revert l; induction n as [|n IH]; intros [|y l] H; simpl in *;
    try discriminate.
  - inversion H; subst; split; reflexivity.
  - apply IH; exact H.
Qed.

Lemma skipn_nil_length (l : list A) n : skipn n l = [] -> (length l <= n)%nat.
Proof.
  revert l; induction n as [|n IH]; intros [|y l] H; simpl in *;
    try discriminate; try lia.
  apply IH in H; lia.
Qed.

Lemma find_loop_spec (cmp : A -> A -> Z) (l : list A) key to :
  forall rest target, skipn target l = rest ->
  (target <= to <= length l)%nat ->
  let r := find_loop cmp key target rest to in
  (target <= r <= to)%nat /\
  (forall i a, (target <= i < r)%nat -> nth_error l i = Some a ->
               (0 < cmp a key)%Z) /\
  (r = to \/ (r < to)%nat /\
     exists a, nth_error l r = Some a /\ (cmp a key <= 0)%Z).
Proof.
  induction rest as [|c rest IH]; intros target Hsk Hr; simpl.
  - apply skipn_nil_length in Hsk.
    assert (target = to) by lia; subst.
    rewrite Nat.eqb_refl; split; [lia|]; split; [intros; lia | left; reflexivity].
  - destruct (Nat.eqb_spec target to) as [-> | Hne].
    + split; [lia|]; split; [intros; lia | left; reflexivity].
    + destruct (skipn_cons_next _ _ _ _ Hsk) as (Hc & Hsk').
      destruct (0 <? cmp c key)%Z eqn:Ec.
      * destruct (IH (S target) Hsk') as (H1 & H2 & H3); [lia|].
        unfold DLLNext; split; [lia|]; split; [|exact H3].
        intros i a Hi Ha.
        destruct (Nat.eq_dec i target) as [-> | Hit].
        -- rewrite Hc in Ha; inversion Ha; subst; apply Z.ltb_lt; exact Ec.
        -- apply (H2 i a); [lia | exact Ha].
      * split; [lia|]; split; [intros; lia|].
        right; split; [lia|]; exists c; split; [exact Hc|].
        apply Z.ltb_ge; exact Ec.
Qed.

Lemma findif_loop_first {B : Type} (m : A -> B -> Z) param pre x post :
  Forall (fun y => m y param = 0%Z) pre -> m x param <> 0%Z ->
  forall r to, to = (r + length (pre ++ x :: post))%nat ->
  findif_loop m param r (pre ++ x :: post) to = (r + length pre)%nat.
Proof.
  intros Hpre Hx; induction Hpre as [|y pre Hy Hpre IH]; intros r to Hto; simpl.
  - destruct (Nat.eqb_spec r to) as [E | _]; [simpl in Hto; lia|].
    destruct (m x param =? 0)%Z eqn:E; [apply Z.eqb_eq in E; contradiction|].
    simpl; lia.
  - destruct (Nat.eqb_spec r to) as [E | _]; [simpl in Hto; lia|].
    rewrite Hy; simpl. unfold DLLNext.
    rewrite (IH (S r) to); [lia|]. simpl in Hto |- *; lia.
Qed.

Lemma findif_loop_none {B : Type} (m : A -> B -> Z) param q :
  Forall (fun y => m y param = 0%Z) q ->
  forall r to, to = (r + length q)%nat -> findif_loop m param r q to = to.
Proof.
  intros Hq; induction Hq as [|y q Hy Hq IH]; intros r to Hto; simpl.
  - destruct (Nat.eqb r to); reflexivity.
  - destruct (Nat.eqb r to); [reflexivity|].
    rewrite Hy; simpl; apply IH; unfold DLLNext; simpl in Hto; lia.
Qed.

Lemma first_match {B : Type} (m : A -> B -> Z) param q :
  (exists y, In y q /\ m y param <> 0%Z) ->
  exists pre x post, q = pre ++ x :: post /\
    Forall (fun y => m y param = 0%Z) pre /\ m x param <> 0%Z.
Proof.
  induction q as [|y q IH]; intros (z & Hz & Hm); [destruct Hz|].
  destruct (Z.eq_dec (m y param) 0) as [Hy | Hy].
  - destruct Hz as [-> | Hz]; [contradiction|].
    destruct IH as (pre & x & post & -> & Hpre & Hx); [exists z; split; assumption|].
    exists (y :: pre), x, post; split; [reflexivity|]; split; [constructor; assumption | exact Hx].
  - exists [], y, q; split; [reflexivity|]; split; [constructor | exact Hy].
Qed.

Lemma erase_found {B : Type} (q : list A) (m : A -> B -> Z) param pre x post :
  q = pre ++ x :: post -> Forall (fun y => m y param = 0%Z) pre ->
  m x param <> 0%Z ->
  PriorityQueueErase q m param = (pre ++ post, ErasedData x).
Proof.
  intros -> Hpre Hx. unfold PriorityQueueErase, SortedListFindIf,
    SortedListBegin, SortedListEnd, DLLBegin, DLLEnd.
  change (skipn 0 ?l) with l.
  rewrite (findif_loop_first m param pre x post Hpre Hx 0
             (length (pre ++ x :: post)) eq_refl).
  unfold SortedListIsEqual; simpl.
  destruct (Nat.eqb_spec (length pre) (length (pre ++ x :: post))) as [E | _].
  - rewrite length_app in E; simpl in E; lia.
  - assert (Hs : skipn (S (length pre)) (pre ++ x :: post) = post)
      by (clear; induction pre as [|y pre IH]; [reflexivity | exact IH]).
    assert (Hf : firstn (length pre) (pre ++ x :: post) = pre)
      by (apply firstn_skipn_length_app).
    assert (Hg : DLLGetData (pre ++ x :: post) (length pre) = Some x)
      by (unfold DLLGetData; rewrite nth_error_app2, Nat.sub_diag by lia;
          reflexivity).
    cbn [negb Z.eqb]. rewrite Hg.
    unfold SortedListRemove, DLLRemove; cbn [fst].
    rewrite Hf; f_equal; f_equal; exact Hs.
Qed.

Lemma erase_not_found {B : Type} (q : list A) (m : A -> B -> Z) param :
  Forall (fun y => m y param = 0%Z) q ->
  PriorityQueueErase q m param = (q, QueueHandle).
Proof.
  intros Hq. unfold PriorityQueueErase, SortedListFindIf,
    SortedListBegin, SortedListEnd, DLLBegin, DLLEnd.
  change (skipn 0 ?l) with l.
  rewrite (findif_loop_none m param q Hq 0 (length q) eq_refl).
  unfold SortedListIsEqual; rewrite Nat.eqb_refl; reflexivity.
Qed.

End Ranges.

(** * Claims on the adapter and on ranges *)

(** C5: [SortedListInsert] returns the new node when the engine allocates
    it and the end sentinel when it cannot; [PriorityQueueEnqueue] returns
    0 exactly when the returned position is not [End], non-zero exactly when
    it is. *)
Theorem insert_end_sentinel_status {A : Type} (cmp : A -> A -> Z)
    (alloc_ok : bool) (l : list A) (x : A) :
  let (l', pos) := SortedListInsert cmp alloc_ok l x in
  (if alloc_ok
   then l' = firstn pos l ++ x :: skipn pos l /\
        nth_error l' pos = Some x /\ pos <> SortedListEnd l'
   else l' = l /\ pos = SortedListEnd l') /\
  (snd (PriorityQueueEnqueue cmp alloc_ok l x) = 0%Z <-> pos <> SortedListEnd l') /\
  (snd (PriorityQueueEnqueue cmp alloc_ok l x) <> 0%Z <-> pos = SortedListEnd l').
Proof.
  destruct (span (fun c => (cmp c x <? 0)%Z) l) as [a b] eqn:E.
  unfold PriorityQueueEnqueue; rewrite (insert_shape cmp alloc_ok l x a b E).
  unfold SortedListIsEqual, SortedListEnd, DLLEnd.
  destruct alloc_ok; cbn [snd].
  - destruct (span_spec _ _ _ _ E) as (-> & _ & _).
    destruct (firstn_skipn_length_app a b) as [Hf Hs].
    destruct (Nat.eqb_spec (length (a ++ x :: b)) (length a)) as [Eq | _].
    + rewrite length_app in Eq; simpl in Eq; lia.
    + assert (Hne : length a <> length (a ++ x :: b))
        by (rewrite length_app; simpl; lia).
      rewrite Hf, Hs; split; [split; [reflexivity | split; [|exact Hne]]|].
      * rewrite nth_error_app2, Nat.sub_diag by lia; reflexivity.
      * split; split; intros; [exact Hne | reflexivity | congruence | contradiction].
  - rewrite Nat.eqb_refl; split; [split; reflexivity|].
    split; split; intros; [discriminate | contradiction | reflexivity | discriminate].
Qed.

(** C6: [PriorityQueueErase] runs FindIf over the whole queue; when some
    payload matches, the first match is removed and returned; when none
    matches, the queue pointer is returned and the queue is unchanged. On
    the queue of 1, 2, 3 with "equals 2" it returns 2 and leaves 1 then 3,
    and a second call returns the queue pointer and changes nothing. *)
Theorem erase_contract :
  (forall (A B : Type) (q : list A) (ismatch : A -> B -> Z) (param : B),
     ((exists y, In y q /\ ismatch y param <> 0%Z) ->
      exists pre x post, q = pre ++ x :: post /\
        Forall (fun y => ismatch y param = 0%Z) pre /\ ismatch x param <> 0%Z /\
        PriorityQueueErase q ismatch param = (pre ++ post, ErasedData x)) /\
     ((forall y, In y q -> ismatch y param = 0%Z) ->
      PriorityQueueErase q ismatch param = (q, QueueHandle))) /\
  (PriorityQueueErase (enqueue_all [] [1; 2; 3]%Z) is_equal 2%Z
     = ([1; 3]%Z, ErasedData 2%Z) /\
   PriorityQueueDequeue [1; 3]%Z = Some (1%Z, [3%Z]) /\
   PriorityQueueDequeue [3%Z] = Some (3%Z, []) /\
   PriorityQueueErase [1; 3]%Z is_equal 2%Z = ([1; 3]%Z, QueueHandle)).
Proof.
  split; [|vm_compute; repeat split; reflexivity].
  intros A B q ismatch param; split.
  - intros Hex.
    destruct (first_match ismatch param q Hex) as (pre & x & post & Hq & Hpre & Hx).
    exists pre, x, post; split; [exact Hq|]; split; [exact Hpre|]; split; [exact Hx|].
    exact (erase_found q ismatch param pre x post Hq Hpre Hx).
  - intros Hall; apply erase_not_found.
    rewrite Forall_forall; exact Hall.
Qed.

(** C10: when several payloads match, [PriorityQueueErase] removes exactly
    the first match in traversal order and keeps every other payload in its
    order. *)
Theorem erase_first_match_only {A B : Type} (q : list A)
    (ismatch : A -> B -> Z) (param : B) :
  (1 < length (filter (fun y => negb (ismatch y param =? 0)%Z) q))%nat ->
  exists pre x post, q = pre ++ x :: post /\
    Forall (fun y => ismatch y param = 0%Z) pre /\ ismatch x param <> 0%Z /\
    PriorityQueueErase q ismatch param = (pre ++ post, ErasedData x).
Proof.
  intros Hmany.
  assert (Hex : exists y, In y q /\ ismatch y param <> 0%Z).
  { destruct (filter (fun y => negb (ismatch y param =? 0)%Z) q) as [|y f] eqn:E;
      [simpl in Hmany; lia|].
    assert (Hy : In y (filter (fun y => negb (ismatch y param =? 0)%Z) q))
      by (rewrite E; left; reflexivity).
    apply filter_In in Hy as [Hy Hm].
    exists y; split; [exact Hy|].
    intros H0; rewrite H0 in Hm; discriminate. }
  destruct (first_match ismatch param q Hex) as (pre & x & post & Hq & Hpre & Hx).
  exists pre, x, post; split; [exact Hq|]; split; [exact Hpre|]; split; [exact Hx|].
  exact (erase_found q ismatch param pre x post Hq Hpre Hx).
Qed.

(** C8: on a range [from, to) of the list, [SortedListFind] walks while
    [cmp(current, key) > 0] and returns the first position of the range with
    [cmp(current, key) <= 0], or [to]. *)
Theorem find_range_semantics {A : Type} (cmp : A -> A -> Z) (l : list A)
    (from to : nat) (key : A) :
  (from <= to <= length l)%nat ->
  let r := SortedListFind cmp l from to key in
  (from <= r <= to)%nat /\
  (forall i a, (from <= i < r)%nat -> nth_error l i = Some a ->
               (0 < cmp a key)%Z) /\
  (r = to \/ (r < to)%nat /\
     exists a, nth_error l r = Some a /\ (cmp a key <= 0)%Z).
Proof.
  intros Hr; unfold SortedListFind.
  exact (find_loop_spec cmp l key to (skipn from l) from eq_refl Hr).
Qed.

(** C4: with [asc], enqueueing 5, 1, 3 succeeds each time; Peek gives 1;
    Dequeue gives 1, 3, 5; IsEmpty is 0 before and between the dequeues and
    1 after the third. *)
Theorem pq_scenario_5_1_3 :
  snd (PriorityQueueEnqueue asc true [] 5%Z) = 0%Z /\
  snd (PriorityQueueEnqueue asc true (enqueue_all [] [5%Z]) 1%Z) = 0%Z /\
  snd (PriorityQueueEnqueue asc true (enqueue_all [] [5; 1]%Z) 3%Z) = 0%Z /\
  PriorityQueuePeek (enqueue_all [] [5; 1; 3]%Z) = Some 1%Z /\
  PriorityQueueIsEmpty (enqueue_all [] [5; 1; 3]%Z) = 0%Z /\
  exists q1 q2 q3,
    PriorityQueueDequeue (enqueue_all [] [5; 1; 3]%Z) = Some (1%Z, q1) /\
    PriorityQueueIsEmpty q1 = 0%Z /\
    PriorityQueueDequeue q1 = Some (3%Z, q2) /\
    PriorityQueueIsEmpty q2 = 0%Z /\
    PriorityQueueDequeue q2 = Some (5%Z, q3) /\
    PriorityQueueIsEmpty q3 = 1%Z.
Proof.
  vm_compute. repeat split.
  do 3 eexists; repeat split; reflexivity.
Qed.

Import Debug.

(** C9 (amended): in a debug build, [SortedListFind] and
    [SortedListFindIf] on iterators of two different lists fail their
    assertion, while [SortedListForEach] returns -1 without calling the
    action. *)
Theorem cross_container_ranges {A B : Type} (store : nat -> sorted_list_t A)
    (lst : nat) (from to : sorted_list_iter_t) (key : A)
    (match_ action : A -> B -> Z) (param : B) :
  iter_list from <> iter_list to ->
  SortedListFind_dbg store lst from to key = AssertFailed /\
  SortedListFindIf_dbg store from to match_ param = AssertFailed /\
  SortedListForEach_dbg store from to action param = Returned (-1)%Z.
Proof.
  intros Hne; apply Nat.eqb_neq in Hne.
  unfold SortedListFind_dbg, SortedListFindIf_dbg, SortedListForEach_dbg.
  rewrite Hne; split; [reflexivity | split; reflexivity].
Qed.

(** * Concrete comparators, witnesses and counterexamples *)

Lemma asc_antisym : forall a b, Z.sgn (asc b a) = (- Z.sgn (asc a b))%Z.
Proof. intros a b; unfold asc; rewrite <- Z.sgn_opp; f_equal; lia. Qed.

Lemma asc_trans :
  forall a b c, (asc a b <= 0)%Z -> (asc b c <= 0)%Z -> (asc a c <= 0)%Z.
Proof. unfold asc; lia. Qed.

Lemma by_priority_antisym :
  forall a b, Z.sgn (by_priority b a) = (- Z.sgn (by_priority a b))%Z.
Proof. intros a b; unfold by_priority; rewrite <- Z.sgn_opp; f_equal; lia. Qed.

Lemma by_priority_trans :
  forall a b c, (by_priority a b <= 0)%Z -> (by_priority b c <= 0)%Z ->
  (by_priority a c <= 0)%Z.
Proof. unfold by_priority; lia. Qed.

Ltac solve_sorted :=
  repeat first [ apply Sorted_cons | apply Sorted_nil | apply HdRel_cons
               | apply HdRel_nil | (unfold may_follow, asc; lia) ].

Lemma sort_invariant_preserved_witness :
  sorted_list_inv asc
    (fst (SortedListInsert asc true
       (fst (SortedListInsert asc true
          (fst (SortedListInsert asc true [] 5%Z)) 1%Z)) 3%Z)).
Proof.
  apply (sort_invariant_preserved asc asc_antisym asc_trans [] _).
  - intros [|i] a b Ha; discriminate.
  - eapply steps_cons; [apply step_insert|].
    eapply steps_cons; [apply step_insert|].
    eapply steps_cons; [apply step_insert|].
    apply steps_refl.
Defined.

(** The claim's order, [cmp(A, B) >= 0] for [A] immediately before [B],
    fails after inserting 5 and then 1 into an empty list with [asc]: the
    list is 1, 5 and [asc 1 5 = -4]. *)
Lemma sort_claim_fails_ascending :
  sl_steps asc []
    (fst (SortedListInsert asc true
       (fst (SortedListInsert asc true [] 5%Z)) 1%Z)) /\
  fst (SortedListInsert asc true
     (fst (SortedListInsert asc true [] 5%Z)) 1%Z) = [1; 5]%Z /\
  ~ adjacent_pairs (fun a b => (0 <= asc a b)%Z)
      (fst (SortedListInsert asc true
         (fst (SortedListInsert asc true [] 5%Z)) 1%Z)).
Proof.
  split; [|split; [reflexivity|]].
  - eapply steps_cons; [apply step_insert|].
    eapply steps_cons; [apply step_insert|].
    apply steps_refl.
  - intros H; specialize (H 0%nat 1%Z 5%Z eq_refl eq_refl).
    unfold asc in H; lia.
Qed.

Lemma insert_ties_lifo_witness :
  by_priority (3%Z, 1%nat) (3%Z, 2%nat) = 0%Z /\
  exists pre post, [(1%Z, 0%nat); (5%Z, 0%nat)] = pre ++ post /\
    fst (SortedListInsert by_priority true
       (fst (SortedListInsert by_priority true
          [(1%Z, 0%nat); (5%Z, 0%nat)] (3%Z, 1%nat))) (3%Z, 2%nat))
    = pre ++ (3%Z, 2%nat) :: (3%Z, 1%nat) :: post.
Proof.
  split; [reflexivity|].
  apply (proj2 (insert_ties_lifo by_priority by_priority_antisym
                  by_priority_trans)).
  reflexivity.
Defined.

Lemma merge_correct_witness :
  exists l1', SortedListMerge asc [1; 3]%Z [2; 3; 4]%Z = Some (l1', []) /\
    length l1' = (length [1; 3]%Z + length [2; 3; 4]%Z)%nat /\
    sorted_by asc l1' /\ Permutation l1' ([1; 3] ++ [2; 3; 4])%Z.
Proof.
  apply (merge_correct asc asc_antisym asc_trans); unfold sorted_by; solve_sorted.
Defined.

Lemma erase_contract_witness :
  exists pre x post, [4; 7]%Z = pre ++ x :: post /\
    Forall (fun y => is_equal y 7%Z = 0%Z) pre /\ is_equal x 7%Z <> 0%Z /\
    PriorityQueueErase [4; 7]%Z is_equal 7%Z = (pre ++ post, ErasedData x).
Proof.
  apply (proj1 (proj1 erase_contract Z Z [4; 7]%Z is_equal 7%Z)).
  exists 7%Z; split; [right; left; reflexivity | discriminate].
Defined.

Lemma erase_first_match_only_witness :
  exists pre x post, [2; 7; 7]%Z = pre ++ x :: post /\
    Forall (fun y => is_equal y 7%Z = 0%Z) pre /\ is_equal x 7%Z <> 0%Z /\
    PriorityQueueErase [2; 7; 7]%Z is_equal 7%Z = (pre ++ post, ErasedData x).
Proof.
  apply (erase_first_match_only [2; 7; 7]%Z is_equal 7%Z).
  vm_compute; lia.
Defined.

Lemma find_range_semantics_witness :
  let r := SortedListFind asc [5; 3; 1]%Z 0 3 3%Z in
  (0 <= r <= 3)%nat /\
  (forall i a, (0 <= i < r)%nat -> nth_error [5; 3; 1]%Z i = Some a ->
               (0 < asc a 3)%Z) /\
  (r = 3%nat \/ (r < 3)%nat /\
     exists a, nth_error [5; 3; 1]%Z r = Some a /\ (asc a 3 <= 0)%Z).
Proof.
  apply (find_range_semantics asc [5; 3; 1]%Z 0 3 3%Z).
  simpl; lia.
Defined.

Lemma cross_container_ranges_witness :
  SortedListFind_dbg (fun _ => {| sl_dll := [1; 2]%Z; sl_cmp := asc |}) 1
    {| iterator := 0; iter_list := 1 |} {| iterator := 2; iter_list := 2 |}
    2%Z = AssertFailed /\
  SortedListFindIf_dbg (fun _ => {| sl_dll := [1; 2]%Z; sl_cmp := asc |})
    {| iterator := 0; iter_list := 1 |} {| iterator := 2; iter_list := 2 |}
    is_equal 2%Z = AssertFailed /\
  SortedListForEach_dbg (fun _ => {| sl_dll := [1; 2]%Z; sl_cmp := asc |})
    {| iterator := 0; iter_list := 1 |} {| iterator := 2; iter_list := 2 |}
    is_equal 2%Z = Returned (-1)%Z.
Proof.
  apply cross_container_ranges; simpl; discriminate.
Defined.

(** [SortedListForEach] on iterators of two different lists completes and
    returns -1: no assertion fails. *)
Lemma foreach_cross_container_no_assert :
  SortedListForEach_dbg (fun _ => {| sl_dll := [1; 2]%Z; sl_cmp := asc |})
    {| iterator := 0; iter_list := 1 |} {| iterator := 2; iter_list := 2 |}
    (fun _ _ : Z => 0%Z) 0%Z = Returned (-1)%Z /\
  SortedListForEach_dbg (fun _ => {| sl_dll := [1; 2]%Z; sl_cmp := asc |})
    {| iterator := 0; iter_list := 1 |} {| iterator := 2; iter_list := 2 |}
    (fun _ _ : Z => 0%Z) 0%Z <> AssertFailed.
Proof.
  split; [reflexivity | discriminate].
Qed.

(** * Further properties of the sorted list and of the queue *)

(** ** Merge splices whole runs, yet computes the element-wise merge *)
Section MergeRefinement.
Context {A : Type} (cmp : A -> A -> Z).
Hypothesis cmp_antisym : forall a b, Z.sgn (cmp b a) = (- Z.sgn (cmp a b))%Z.

Lemma stable_merge_nil_r (d : list A) : stable_merge cmp d [] = d.
Proof. destruct d; reflexivity. Qed.

Lemma stable_merge_skip pre rest s0 f :
  Forall (fun x => (cmp x f <=? 0)%Z = true) pre ->
  stable_merge cmp (pre ++ rest) (f :: s0) =
  pre ++ stable_merge cmp rest (f :: s0).
Proof.
  intros H; induction H as [|x pre Hx H IH]; [reflexivity|].
  simpl; rewrite Hx, IH; reflexivity.
Qed.

Lemma stable_merge_move r rest moved s1 :
  Forall (fun t => (cmp r t <=? 0)%Z = false) moved ->
  stable_merge cmp (r :: rest) (moved ++ s1) =
  moved ++ stable_merge cmp (r :: rest) s1.
Proof.
  intros H; induction H as [|t moved Ht H IH]; [reflexivity|].
  simpl; rewrite Ht; f_equal; exact IH.
Qed.

Lemma merge_loop_stable fuel done rest src :
  (length src < fuel)%nat ->
  merge_loop cmp fuel done rest src =
  Some (done ++ stable_merge cmp rest src, []).
Proof.
  revert done rest src.
  induction fuel as [|fuel IH]; intros done rest src Hf; [lia|].
  destruct src as [|f src0].
  - simpl; rewrite stable_merge_nil_r; reflexivity.
  - simpl.
    destruct (span (fun r => (cmp r f <=? 0)%Z) rest) as [skipped rest1] eqn:Esk.
    destruct (span_spec _ _ _ _ Esk) as (-> & Hsk & Hstop).
    rewrite (stable_merge_skip skipped rest1 src0 f Hsk).
    destruct rest1 as [|r rest1'].
    + rewrite IH by (simpl in Hf |- *; lia).
      simpl; rewrite app_nil_r, !app_assoc; reflexivity.
    + destruct (span (fun t => (cmp t r <? 0)%Z) (f :: src0))
        as [moved src1] eqn:Emv.
      destruct (span_spec _ _ _ _ Emv) as (Hsrc & Hmv & _).
      assert (Hfr : (cmp f r <? 0)%Z = true).
      { specialize (Hstop r rest1' eq_refl); apply Z.leb_gt in Hstop.
        apply Z.ltb_lt. pose proof (cmp_antisym r f).
        destruct (cmp r f), (cmp f r); simpl in *; try discriminate; lia. }
      assert (Hlen : (length src1 < length (f :: src0))%nat).
      { simpl in Emv; rewrite Hfr in Emv.
        destruct (span (fun t => (cmp t r <? 0)%Z) src0) as [m s1] eqn:E'.
        inversion Emv; subst moved src1.
        apply (f_equal (@length A)) in Hsrc; rewrite length_app in Hsrc.
        simpl in Hsrc |- *; lia. }
      assert (Hmv' : Forall (fun t => (cmp r t <=? 0)%Z = false) moved).
      { rewrite Forall_forall in Hmv |- *; intros t Ht.
        specialize (Hmv t Ht); apply Z.ltb_lt in Hmv; apply Z.leb_gt.
        pose proof (cmp_antisym t r).
        destruct (cmp t r), (cmp r t); simpl in *; try discriminate; lia. }
      simpl in Emv; rewrite Emv.
      rewrite Hsrc, (stable_merge_move r rest1' moved src1 Hmv').
      rewrite IH by (simpl in Hf, Hlen |- *; lia).
      rewrite <- !app_assoc; reflexivity.
Qed.

End MergeRefinement.

(** ** Helpers *)
Section MoreFacts.
Context {A : Type}.

Lemma remove_at_middle (a b : list A) (y : A) :
  DLLRemove (a ++ y :: b) (length a) = (a ++ b, length a).
Proof.
  unfold DLLRemove; f_equal.
  induction a as [|x a IH]; [reflexivity|]; simpl; f_equal; exact IH.
Qed.

Lemma findif_loop_spec {B : Type} (m : A -> B -> Z) param (l : list A) to :
  forall rest target, skipn target l = rest ->
  (target <= to <= length l)%nat ->
  let r := findif_loop m param target rest to in
  (target <= r <= to)%nat /\
  (forall i a, (target <= i < r)%nat -> nth_error l i = Some a ->
               m a param = 0%Z) /\
  (r = to \/ (r < to)%nat /\
     exists a, nth_error l r = Some a /\ m a param <> 0%Z).
Proof.
  induction rest as [|c rest IH]; intros target Hsk Hr; simpl.
  - apply skipn_nil_length in Hsk.
    assert (target = to) by lia; subst.
    rewrite Nat.eqb_refl; split; [lia|]; split; [intros; lia | left; reflexivity].
  - destruct (Nat.eqb_spec target to) as [-> | Hne].
    + split; [lia|]; split; [intros; lia | left; reflexivity].
    + destruct (skipn_cons_next _ _ _ _ Hsk) as (Hc & Hsk').
      destruct (m c param =? 0)%Z eqn:Ec; simpl.
      * destruct (IH (S target) Hsk') as (H1 & H2 & H3); [lia|].
        unfold DLLNext; split; [lia|]; split; [|exact H3].
        intros i a Hi Ha.
        destruct (Nat.eq_dec i target) as [-> | Hit].
        -- rewrite Hc in Ha; inversion Ha; subst; apply Z.eqb_eq; exact Ec.
        -- apply (H2 i a); [lia | exact Ha].
      * split; [lia|]; split; [intros; lia|].
        right; split; [lia|]; exists c; split; [exact Hc|].
        apply Z.eqb_neq; exact Ec.
Qed.

Lemma clear_loop_empties fuel (q : list A) :
  (length q < fuel)%nat -> clear_loop fuel q = Some [].
Proof.
  revert fuel; induction q as [|x q IH]; intros [|fuel] Hf; simpl in Hf;
    try lia; [reflexivity|].
  simpl; apply IH; lia.
Qed.

End MoreFacts.

(** Merge computes [stable_merge]: payloads of each list keep their
    order, and on a tie the destination's payload comes first. *)
Theorem merge_is_stable_merge {A : Type} (cmp : A -> A -> Z)
    (cmp_antisym : forall a b, Z.sgn (cmp b a) = (- Z.sgn (cmp a b))%Z)
    (dest src : list A) :
  SortedListMerge cmp dest src = Some (stable_merge cmp dest src, []).
Proof.
  unfold SortedListMerge.
  rewrite (merge_loop_stable cmp cmp_antisym) by lia; reflexivity.
Qed.

(** Merge with an empty source leaves the destination as it is; Merge into
    an empty destination moves the whole source; for any comparator. *)
Theorem merge_empty_sides {A : Type} (cmp : A -> A -> Z) (l : list A) :
  SortedListMerge cmp l [] = Some (l, []) /\
  SortedListMerge cmp [] l = Some (l, []).
Proof.
  split; [reflexivity|].
  destruct l as [|f l0]; [reflexivity|].
  unfold SortedListMerge; simpl; rewrite app_nil_r; reflexivity.
Qed.

(** A successful Insert adds exactly the new payload: the count grows by
    one and the contents are those of the old list plus [x]; a failed
    Insert leaves the list unchanged. *)
Theorem insert_count_permutation {A : Type} (cmp : A -> A -> Z)
    (alloc_ok : bool) (l : list A) (x : A) :
  let (l', _) := SortedListInsert cmp alloc_ok l x in
  if alloc_ok
  then SortedListCount l' = S (SortedListCount l) /\ Permutation l' (x :: l)
  else l' = l.
Proof.
  destruct (span (fun c => (cmp c x <? 0)%Z) l) as [a b] eqn:E.
  rewrite (insert_shape cmp alloc_ok l x a b E).
  destruct alloc_ok; [|reflexivity].
  destruct (span_spec _ _ _ _ E) as (-> & _ & _).
  unfold SortedListCount, DLLCount; rewrite !length_app; simpl.
  split; [lia|]. apply Permutation_sym, Permutation_middle.
Qed.

(** Removing the position returned by a successful Insert restores the
    list, and the returned position then holds the payload that followed
    the inserted one. *)
Theorem insert_remove_roundtrip {A : Type} (cmp : A -> A -> Z)
    (l : list A) (x : A) :
  let (l', pos) := SortedListInsert cmp true l x in
  SortedListRemove l' pos = (l, pos) /\ nth_error l pos = nth_error l' (S pos).
Proof.
  destruct (span (fun c => (cmp c x <? 0)%Z) l) as [a b] eqn:E.
  rewrite (insert_shape cmp true l x a b E).
  destruct (span_spec _ _ _ _ E) as (-> & _ & _).
  unfold SortedListRemove; rewrite remove_at_middle; split; [reflexivity|].
  rewrite !nth_error_app2 by lia.
  replace (S (length a) - length a)%nat with 1%nat by lia.
  rewrite Nat.sub_diag; reflexivity.
Qed.

(** Remove at a position before End drops exactly that payload: the count
    falls by one, earlier payloads keep their positions, later ones move
    down by one, and the returned position is End exactly when the last
    payload was removed. *)
Theorem remove_valid_position {A : Type} (l : list A) (p : nat) :
  (p < length l)%nat ->
  let (l', next) := SortedListRemove l p in
  SortedListCount l' = (SortedListCount l - 1)%nat /\
  (forall i, (i < p)%nat -> nth_error l' i = nth_error l i) /\
  (forall i, (p <= i)%nat -> nth_error l' i = nth_error l (S i)) /\
  (next = SortedListEnd l' <-> p = (length l - 1)%nat).
Proof.
  intros Hp.
  destruct (nth_error l p) as [y|] eqn:Ey;
    [|apply nth_error_None in Ey; lia].
  destruct (nth_error_split l p Ey) as (a & b & -> & <-).
  unfold SortedListRemove; rewrite remove_at_middle.
  unfold SortedListCount, SortedListEnd, DLLCount, DLLEnd.
  rewrite !length_app; cbn [length].
  split; [lia|]; split; [|split].
  - intros i Hi; rewrite !nth_error_app1 by lia; reflexivity.
  - intros i Hi; rewrite !nth_error_app2 by lia.
    replace (S i - length a)%nat with (S (i - length a)) by lia; reflexivity.
  - split; intros; lia.
Qed.

(** FindIf on a range [from, to) returns the first position whose payload
    matches, or [to] when none does. *)
Theorem findif_range_semantics {A B : Type} (l : list A) (from to : nat)
    (m : A -> B -> Z) (param : B) :
  (from <= to <= length l)%nat ->
  let r := SortedListFindIf l from to m param in
  (from <= r <= to)%nat /\
  (forall i a, (from <= i < r)%nat -> nth_error l i = Some a ->
               m a param = 0%Z) /\
  (r = to \/ (r < to)%nat /\
     exists a, nth_error l r = Some a /\ m a param <> 0%Z).
Proof.
  intros Hr; unfold SortedListFindIf.
  exact (findif_loop_spec m param l to (skipn from l) from eq_refl Hr).
Qed.

(** Clear always exits, leaving the queue empty. *)
Theorem clear_empties_queue {A : Type} (q : list A) :
  PriorityQueueClear q = Some [].
Proof. apply clear_loop_empties; lia. Qed.

(** Enqueueing [x] and then erasing with a predicate that only [x]
    satisfies gives back [x] and the queue as it was. *)
Theorem enqueue_erase_roundtrip {A B : Type} (cmp : A -> A -> Z)
    (q : list A) (x : A) (m : A -> B -> Z) (param : B) :
  m x param <> 0%Z -> Forall (fun y => m y param = 0%Z) q ->
  PriorityQueueErase (fst (PriorityQueueEnqueue cmp true q x)) m param
  = (q, ErasedData x).
Proof.
  intros Hx Hq.
  destruct (span (fun c => (cmp c x <? 0)%Z) q) as [a b] eqn:E.
  unfold PriorityQueueEnqueue; rewrite (insert_shape cmp true q x a b E).
  cbn [fst].
  destruct (span_spec _ _ _ _ E) as (Hab & _ & _).
  rewrite Hab in Hq |- *; apply Forall_app in Hq as [Ha _].
  exact (erase_found (a ++ x :: b) m param a x b eq_refl Ha Hx).
Qed.


(** On a sorted queue with a lawful comparator, Dequeue removes the front
    payload, and no payload left behind would have to be placed before it. *)
Theorem dequeue_highest_priority {A : Type} (cmp : A -> A -> Z)
    (cmp_trans : forall a b c,
        (cmp a b <= 0)%Z -> (cmp b c <= 0)%Z -> (cmp a c <= 0)%Z)
    (q : list A) (x : A) (q' : list A) :
  sorted_by cmp q -> PriorityQueueDequeue q = Some (x, q') ->
  q = x :: q' /\ Forall (fun y => (cmp x y <= 0)%Z) q'.
Proof.
  intros Hs E.
  destruct q as [|y t]; [discriminate|].
  inversion E; subst; split; [reflexivity|].
  apply (sorted_strongly cmp cmp_trans) in Hs.
  inversion Hs as [|? ? _ Hf]; exact Hf.
Qed.

(** On a sorted list with a lawful comparator, PopBack removes the last
    payload, and it would not have to be placed before any payload left. *)
Theorem pop_back_lowest_priority {A : Type} (cmp : A -> A -> Z)
    (cmp_trans : forall a b c,
        (cmp a b <= 0)%Z -> (cmp b c <= 0)%Z -> (cmp a c <= 0)%Z)
    (l : list A) (x : A) (l' : list A) :
  sorted_by cmp l -> SortedListPopBack l = Some (x, l') ->
  l = l' ++ [x] /\ Forall (fun y => (cmp y x <= 0)%Z) l'.
Proof.
  intros Hs E.
  apply dllpopback_shape in E; subst; split; [reflexivity|].
  apply (sorted_strongly cmp cmp_trans) in Hs.
  apply ss_app_iff in Hs as (_ & _ & Hc).
  apply Forall_forall; intros y Hy; apply (Hc y x Hy); left; reflexivity.
Qed.

(** Inserting into a sorted list (lawful comparator) puts the new payload
    after every payload [c] with [cmp c x < 0] and before every payload
    with [cmp c x >= 0]; the list is cut in two there. *)
Theorem insert_sorted_position {A : Type} (cmp : A -> A -> Z)
    (cmp_antisym : forall a b, Z.sgn (cmp b a) = (- Z.sgn (cmp a b))%Z)
    (cmp_trans : forall a b c,
        (cmp a b <= 0)%Z -> (cmp b c <= 0)%Z -> (cmp a c <= 0)%Z)
    (l : list A) (x : A) :
  sorted_by cmp l ->
  exists pre post,
    l = pre ++ post /\
    SortedListInsert cmp true l x = (pre ++ x :: post, length pre) /\
    Forall (fun c => (cmp c x < 0)%Z) pre /\
    Forall (fun c => (0 <= cmp c x)%Z) post.
Proof.
  intros Hs.
  destruct (span (fun c => (cmp c x <? 0)%Z) l) as [a b] eqn:E.
  destruct (span_spec _ _ _ _ E) as (Hab & Ha & Hb).
  exists a, b; split; [exact Hab|]; split;
    [exact (insert_shape cmp true l x a b E)|]; split.
  - eapply Forall_impl; [|exact Ha]; intros c Hc; apply Z.ltb_lt; exact Hc.
  - destruct b as [|h t]; [constructor|].
    pose proof (Hb h t eq_refl) as Hh; apply Z.ltb_ge in Hh.
    apply (sorted_strongly cmp cmp_trans) in Hs; rewrite Hab in Hs.
    apply ss_app_iff in Hs as (_ & Hht & _).
    inversion Hht as [|? ? _ Hf]; subst.
    constructor; [exact Hh|].
    eapply Forall_impl; [|exact Hf]; intros y Hy.
    apply (cmp_flip_le cmp cmp_antisym).
    apply (cmp_trans x h y); [|exact Hy].
    apply (cmp_flip_le cmp cmp_antisym); exact Hh.
Qed.

(** In a debug build, FindIf over a range of one list does not fail its
    assertion and returns an iterator of that list inside the range. *)
Theorem findif_dbg_same_list {A B : Type} (store : nat -> sorted_list_t A)
    (from to : sorted_list_iter_t) (m : A -> B -> Z) (param : B) :
  iter_list from = iter_list to ->
  (iterator from <= iterator to <= length (nodes_of store from))%nat ->
  exists r, SortedListFindIf_dbg store from to m param = Returned r /\
    iter_list r = iter_list from /\
    (iterator from <= iterator r <= iterator to)%nat.
Proof.
  intros Hl Hr.
  assert (Hb : (iterator from <= SortedListFindIf (nodes_of store from)
                 (iterator from) (iterator to) m param <= iterator to)%nat)
    by exact (proj1 (findif_loop_spec m param (nodes_of store from)
                       (iterator to) _ (iterator from) eq_refl Hr)).
  unfold SortedListFindIf_dbg; rewrite Hl, Nat.eqb_refl.
  destruct (Nat.eqb_spec (SortedListFindIf (nodes_of store from)
              (iterator from) (iterator to) m param) (iterator to)) as [He|Hne].
  - eexists; split; [reflexivity|]; split; [reflexivity|lia].
  - eexists; split; [reflexivity|]; simpl; split; [reflexivity|lia].
Qed.

Lemma merge_is_stable_merge_witness :
  SortedListMerge asc [1; 3; 3]%Z [0; 3; 5]%Z
  = Some (stable_merge asc [1; 3; 3]%Z [0; 3; 5]%Z, []) /\
  stable_merge asc [1; 3; 3]%Z [0; 3; 5]%Z = [0; 1; 3; 3; 3; 5]%Z.
Proof.
  split; [apply (merge_is_stable_merge asc asc_antisym) | reflexivity].
Defined.

Lemma remove_valid_position_witness :
  (1 < length [4; 7; 9]%Z)%nat /\
  (let (l', next) := SortedListRemove [4; 7; 9]%Z 1 in
   SortedListCount l' = (SortedListCount [4; 7; 9]%Z - 1)%nat /\
   (forall i, (i < 1)%nat -> nth_error l' i = nth_error [4; 7; 9]%Z i) /\
   (forall i, (1 <= i)%nat -> nth_error l' i = nth_error [4; 7; 9]%Z (S i)) /\
   (next = SortedListEnd l' <-> 1%nat = (length [4; 7; 9]%Z - 1)%nat)).
Proof.
  split; [simpl; lia | apply (remove_valid_position [4; 7; 9]%Z 1); simpl; lia].
Defined.

Lemma findif_range_semantics_witness :
  (1 <= 3 <= length [4; 7; 9; 7]%Z)%nat /\
  (let r := SortedListFindIf [4; 7; 9; 7]%Z 1 3 is_equal 9%Z in
   (1 <= r <= 3)%nat /\
   (forall i a, (1 <= i < r)%nat -> nth_error [4; 7; 9; 7]%Z i = Some a ->
                is_equal a 9%Z = 0%Z) /\
   (r = 3%nat \/ (r < 3)%nat /\
      exists a, nth_error [4; 7; 9; 7]%Z r = Some a /\ is_equal a 9%Z <> 0%Z)).
Proof.
  split; [simpl; lia|].
  apply (findif_range_semantics [4; 7; 9; 7]%Z 1 3 is_equal 9%Z); simpl; lia.
Defined.

Lemma enqueue_erase_roundtrip_witness :
  is_equal 6%Z 6%Z <> 0%Z /\
  Forall (fun y => is_equal y 6%Z = 0%Z) [2; 5; 8]%Z /\
  PriorityQueueErase (fst (PriorityQueueEnqueue asc true [2; 5; 8]%Z 6%Z))
    is_equal 6%Z = ([2; 5; 8]%Z, ErasedData 6%Z).
Proof.
  assert (H1 : is_equal 6%Z 6%Z <> 0%Z) by discriminate.
  assert (H2 : Forall (fun y => is_equal y 6%Z = 0%Z) [2; 5; 8]%Z)
    by repeat constructor.
  split; [exact H1|]; split; [exact H2|].
  apply (enqueue_erase_roundtrip asc [2; 5; 8]%Z 6%Z is_equal 6%Z H1 H2).
Defined.

Lemma dequeue_highest_priority_witness :
  sorted_by asc [1; 3; 3; 8]%Z /\
  PriorityQueueDequeue [1; 3; 3; 8]%Z = Some (1%Z, [3; 3; 8]%Z) /\
  [1; 3; 3; 8]%Z = 1%Z :: [3; 3; 8]%Z /\
  Forall (fun y => (asc 1 y <= 0)%Z) [3; 3; 8]%Z.
Proof.
  assert (Hs : sorted_by asc [1; 3; 3; 8]%Z) by (unfold sorted_by; solve_sorted).
  assert (Hd : PriorityQueueDequeue [1; 3; 3; 8]%Z = Some (1%Z, [3; 3; 8]%Z))
    by reflexivity.
  split; [exact Hs|]; split; [exact Hd|].
  exact (dequeue_highest_priority asc asc_trans _ _ _ Hs Hd).
Defined.

Lemma pop_back_lowest_priority_witness :
  sorted_by asc [1; 3; 8]%Z /\
  SortedListPopBack [1; 3; 8]%Z = Some (8%Z, [1; 3]%Z) /\
  [1; 3; 8]%Z = [1; 3]%Z ++ [8%Z] /\
  Forall (fun y => (asc y 8 <= 0)%Z) [1; 3]%Z.
Proof.
  assert (Hs : sorted_by asc [1; 3; 8]%Z) by (unfold sorted_by; solve_sorted).
  assert (Hd : SortedListPopBack [1; 3; 8]%Z = Some (8%Z, [1; 3]%Z))
    by reflexivity.
  split; [exact Hs|]; split; [exact Hd|].
  exact (pop_back_lowest_priority asc asc_trans _ _ _ Hs Hd).
Defined.

Lemma insert_sorted_position_witness :
  sorted_by asc [1; 4; 4; 9]%Z /\
  exists pre post,
    [1; 4; 4; 9]%Z = pre ++ post /\
    SortedListInsert asc true [1; 4; 4; 9]%Z 4%Z
    = (pre ++ 4%Z :: post, length pre) /\
    Forall (fun c => (asc c 4 < 0)%Z) pre /\
    Forall (fun c => (0 <= asc c 4)%Z) post.
Proof.
  assert (Hs : sorted_by asc [1; 4; 4; 9]%Z) by (unfold sorted_by; solve_sorted).
  split; [exact Hs|].
  exact (insert_sorted_position asc asc_antisym asc_trans _ 4%Z Hs).
Defined.

Lemma findif_dbg_same_list_witness :
  exists r,
    SortedListFindIf_dbg (fun _ => {| sl_dll := [1; 4; 7]%Z; sl_cmp := asc |})
      {| iterator := 0; iter_list := 2 |} {| iterator := 3; iter_list := 2 |}
      is_equal 4%Z = Returned r /\
    iter_list r = 2%nat /\ (0 <= iterator r <= 3)%nat.
Proof.
  apply (findif_dbg_same_list
           (fun _ => {| sl_dll := [1; 4; 7]%Z; sl_cmp := asc |})
           {| iterator := 0; iter_list := 2 |} {| iterator := 3; iter_list := 2 |}
           is_equal 4%Z); simpl; [reflexivity | lia].
Defined.
